(** * GROE combination model: weights from rolling-origin losses

    A verification development for [darts/models/groe_combination_model.py].

    The class [GROECombinationModel] derives one weight per constituent
    forecasting model from the loss that the generalized rolling-origin
    evaluation ([groe]) reports for it, and combines the per-model
    predictions with those weights.

    Numbers.  The losses and weights are Python/NumPy floats.  The class is
    modelled over exact rationals extended with the three special values of
    IEEE arithmetic ([PInf], [NInf], [NaN]); the rules for the special values
    follow NumPy, while rounding, overflow and the sign of zero are not part
    of this model.  What is proved over it about the values of the weights is
    therefore a statement in exact arithmetic, and is worded so.  Where
    rounding or overflow decides what the code does, the three branches of the
    weight derivation are evaluated in binary64 as well ([Binary64]).

    Collaborators.  The evaluator and the fit of the base class are taken as
    operations that return.  An exception raised inside them passes through
    the methods of this class unchanged and is outside the model: the results
    are about what the class does with the answers it gets. *)

From Stdlib Require Import QArith Qfield Lqa Lia Floats.SpecFloat.
From stdpp Require Import base option list gmap strings.

Close Scope Q_scope.

(** ** Scalars *)

Inductive scalar : Type :=
  | Fin (q : Q)
  | PInf
  | NInf
  | NaN.

(** The infinity whose sign is the sign of [q]; [0 * inf] and [0 / 0] are
    not numbers. *)
Definition signed_inf (q : Q) : scalar :=
  match (q ?= 0)%Q with
  | Gt => PInf
  | Lt => NInf
  | Eq => NaN
  end.

Definition sopp (x : scalar) : scalar :=
  match x with
  | Fin q => Fin (- q)
  | PInf => NInf
  | NInf => PInf
  | NaN => NaN
  end.

Definition sadd (x y : scalar) : scalar :=
  match x, y with
  | NaN, _ | _, NaN => NaN
  | Fin a, Fin b => Fin (a + b)
  | PInf, NInf | NInf, PInf => NaN
  | PInf, _ | _, PInf => PInf
  | NInf, _ | _, NInf => NInf
  end.

Definition smul (x y : scalar) : scalar :=
  match x, y with
  | NaN, _ | _, NaN => NaN
  | Fin a, Fin b => Fin (a * b)
  | Fin a, PInf | PInf, Fin a => signed_inf a
  | Fin a, NInf | NInf, Fin a => sopp (signed_inf a)
  | PInf, PInf | NInf, NInf => PInf
  | PInf, NInf | NInf, PInf => NInf
  end.

Definition sdiv (x y : scalar) : scalar :=
  match x, y with
  | NaN, _ | _, NaN => NaN
  | Fin a, Fin b => if Qeq_bool b 0 then signed_inf a else Fin (a / b)
  | Fin _, PInf | Fin _, NInf => Fin 0
  | PInf, Fin b => match (b ?= 0)%Q with Lt => NInf | _ => PInf end
  | NInf, Fin b => match (b ?= 0)%Q with Lt => PInf | _ => NInf end
  | PInf, PInf | PInf, NInf | NInf, PInf | NInf, NInf => NaN
  end.

(** Python's [x == y] on floats: [nan] equals nothing, not even itself. *)
Definition py_eq (x y : scalar) : bool :=
  match x, y with
  | Fin a, Fin b => Qeq_bool a b
  | PInf, PInf | NInf, NInf => true
  | _, _ => false
  end.

(** Equality of scalars up to the representation of the fraction. *)
Definition seq (x y : scalar) : Prop :=
  match x, y with
  | Fin a, Fin b => (a == b)%Q
  | PInf, PInf | NInf, NInf | NaN, NaN => True
  | _, _ => False
  end.


(** ** Python lists and NumPy arrays of scalars *)

(** [x in l] *)
Definition py_in (x : scalar) (l : list scalar) : bool := existsb (py_eq x) l.

(** [l.index(x)]: the first position holding a value equal to [x]; Python
    raises [ValueError] when there is none. *)
Fixpoint py_index (x : scalar) (l : list scalar) : option nat :=
  match l with
  | [] => None
  | y :: l' => if py_eq y x then Some 0 else S <$> py_index x l'
  end.

(** [np.zeros(n)] *)
Definition np_zeros (n : nat) : list scalar := replicate n (Fin 0).

(** [1 / np.array(l)] *)
Definition np_recip (l : list scalar) : list scalar := sdiv (Fin 1) <$> l.

(** [a.sum()].  NumPy adds pairwise rather than left to right; in exact
    arithmetic the value is the same. *)
Definition np_sum (a : list scalar) : scalar := foldl sadd (Fin 0) a.

(** [a / s] *)
Definition np_div (a : list scalar) (s : scalar) : list scalar :=
  (fun x => sdiv x s) <$> a.

(** ** Time series *)

(** Modelled from the spec: the [TimeSeries] class is not part of this
    module.  The spec describes a series as an ordered, timestamped numeric
    sequence supporting elementwise addition and scalar multiplication; the
    addition of two series requires the same timestamps. *)
Definition series : Type := list (Z * scalar).

Definition times (s : series) : list Z := s.*1.

Definition value_at (t : Z) (s : series) : option scalar :=
  snd <$> find (fun p => bool_decide (p.1 = t)) s.

(** [ts * w] for a number [w] *)
Definition ts_mul (s : series) (w : scalar) : series :=
  (fun p => (p.1, smul p.2 w)) <$> s.

(** [ts + x] for a number [x] *)
Definition ts_add_scalar (s : series) (x : scalar) : series :=
  (fun p => (p.1, sadd p.2 x)) <$> s.

(** [a + b] for two series; [None] when the timestamps differ. *)
Definition ts_add (a b : series) : option series :=
  if decide (times a = times b)
  then Some (zip_with (fun p q => (p.1, sadd p.2 q.2)) a b)
  else None.

(** ** Python values, exceptions and the state of the program *)

Inductive pyval : Type :=
  | PyNone
  | PyBool (b : bool)
  | PyInt (z : Z)
  | PyFloat (x : scalar)
  | PyStr (s : string).

Inductive exn : Type :=
  | ValueError (msg : string)
  | TypeError (msg : string).

Inductive res (A : Type) : Type :=
  | Ret (a : A)
  | Raise (e : exn).
Arguments Ret {A} a.
Arguments Raise {A} e.

(** The collaborators of the class that live outside this module: the
    constituent models, the metric, the evaluator [groe] and the fit of the
    base class.  The evaluator is a black box that may depend on, and change,
    the outside [world] (it refits the model it scores). *)
Class Collaborators : Type := {
  world : Type;
  model : Type;
  metric : Type;
  groe : option series -> model -> metric -> pyval -> gmap string pyval ->
         world -> scalar * world;
  models_fit : series -> list model -> world -> world
}.

Section Program.
Context `{Collaborators}.

(** The attributes of a [GROECombinationModel] instance; the first four
    belong to the base class [CombinationModel]. *)
Record GROECombinationModel : Type := mkGROE {
  models : list model;
  train_ts : option series;
  predictions : list series;
  weights : option (list scalar);
  metrics : metric;
  n_evaluations : pyval;
  groe_kwargs : gmap string pyval;
  criterion : option (list scalar)
}.

Definition set_train_ts (v : option series) (s : GROECombinationModel) :=
  mkGROE (models s) v (predictions s) (weights s) (metrics s)
         (n_evaluations s) (groe_kwargs s) (criterion s).

Definition set_predictions (v : list series) (s : GROECombinationModel) :=
  mkGROE (models s) (train_ts s) v (weights s) (metrics s)
         (n_evaluations s) (groe_kwargs s) (criterion s).

Definition set_weights (v : option (list scalar)) (s : GROECombinationModel) :=
  mkGROE (models s) (train_ts s) (predictions s) v (metrics s)
         (n_evaluations s) (groe_kwargs s) (criterion s).

Definition set_n_evaluations (v : pyval) (s : GROECombinationModel) :=
  mkGROE (models s) (train_ts s) (predictions s) (weights s) (metrics s)
         v (groe_kwargs s) (criterion s).

Definition set_groe_kwargs (v : gmap string pyval) (s : GROECombinationModel) :=
  mkGROE (models s) (train_ts s) (predictions s) (weights s) (metrics s)
         (n_evaluations s) v (criterion s).

Definition set_criterion (v : option (list scalar)) (s : GROECombinationModel) :=
  mkGROE (models s) (train_ts s) (predictions s) (weights s) (metrics s)
         (n_evaluations s) (groe_kwargs s) v.

(** One invocation of the evaluator: its arguments and what it returned. *)
Record call : Type := mkCall {
  call_series : option series;
  call_model : model;
  call_metric : metric;
  call_n_evaluations : pyval;
  call_kwargs : gmap string pyval;
  call_result : scalar
}.

(** What a method can read and write: the instance, the outside world and
    the log of the evaluator's invocations, oldest first. *)
Record heap : Type := mkHeap {
  self : GROECombinationModel;
  ext : world;
  calls : list call
}.

(** Methods are state transformers that may raise; the state survives an
    exception. *)
Definition M (A : Type) : Type := heap -> res A * heap.

#[global] Instance M_ret : MRet M := fun A a h => (Ret a, h).
#[global] Instance M_bind : MBind M := fun A B f m h =>
  match m h with
  | (Ret a, h') => f a h'
  | (Raise e, h') => (Raise e, h')
  end.

Definition raise {A} (e : exn) : M A := fun h => (Raise e, h).
Definition get_self : M GROECombinationModel := fun h => (Ret (self h), h).
Definition modify_self (f : GROECombinationModel -> GROECombinationModel) : M unit :=
  fun h => (Ret tt, mkHeap (f (self h)) (ext h) (calls h)).

(** [for x in l: body(x)] *)
Fixpoint for_each {A} (l : list A) (body : A -> M unit) : M unit :=
  match l with
  | [] => mret tt
  | x :: l' => body x ;; for_each l' body
  end.

(** [groe(self.train_ts, model, self.metrics,
          n_evaluations=self.n_evaluations, **self.groe_kwargs)]; the
    invocation and its answer are appended to the log.  The stored options
    never hold an [n_evaluations] entry of their own: [__init__] takes it as
    a named parameter and [update_groe_params] pops it. *)
Definition call_groe (m : model) : M scalar := fun h =>
  let s := self h in
  let '(r, w) := groe (train_ts s) m (metrics s) (n_evaluations s)
                      (groe_kwargs s) (ext h) in
  (Ret r,
   mkHeap s w
          (calls h ++ [mkCall (train_ts s) m (metrics s) (n_evaluations s)
                              (groe_kwargs s) r])).

(** Modelled from the spec: [CombinationModel.fit] is not part of this
    module.  The base ensemble owns the training series and the models; its
    fit runs first, records the series and fits every model. *)
Definition super_fit (ts : series) : M unit := fun h =>
  (Ret tt,
   mkHeap (set_train_ts (Some ts) (self h))
          (models_fit ts (models (self h)) (ext h))
          (calls h)).

(** [self.criterion.append(c)] *)
Definition criterion_append (c : scalar) : M unit := fun h =>
  match criterion (self h) with
  | Some l => (Ret tt, mkHeap (set_criterion (Some (l ++ [c])) (self h)) (ext h) (calls h))
  | None => (Raise (TypeError "'NoneType' object has no attribute 'append'"), h)
  end.

(** Reading [self.criterion] where a list is needed. *)
Definition get_criterion : M (list scalar) := fun h =>
  match criterion (self h) with
  | Some l => (Ret l, h)
  | None => (Raise (TypeError "argument of type 'NoneType' is not iterable"), h)
  end.

(** The error of [fit]; [raise_log] logs the exception and raises it. *)
Definition impossible : exn :=
  ValueError "Impossible to evaluate one of the models on this TimeSeries. Choose another fallback method".

(** ** The methods of the class *)

(** [__init__(models, metrics, n_evaluations, **groe_kwargs)]; callers that
    omit [n_evaluations] get 6.  The attributes of the base class start
    absent or empty. *)
Definition default_n_evaluations : pyval := PyInt 6.

Definition init (ms : list model) (mt : metric) (n : pyval)
    (kw : gmap string pyval) : GROECombinationModel :=
  mkGROE ms None [] None mt n kw None.

(** [update_groe_params], called with keyword arguments only: [pop] removes
    the entry from the dictionary that is stored afterwards. *)
Definition update_groe_params (kw : gmap string pyval) : M unit :=
  match kw !! "n_evaluations" with
  | Some n =>
      modify_self (set_n_evaluations n) ;;
      modify_self (set_groe_kwargs (delete "n_evaluations" kw))
  | None => modify_self (set_groe_kwargs kw)
  end.

(** [fit(train_ts)] *)
Definition fit (ts : series) : M unit :=
  super_fit ts ;;
  modify_self (set_criterion (Some [])) ;;
  s ← get_self ;
  for_each (models s) (fun model => c ← call_groe model ; criterion_append c) ;;
  crit ← get_criterion ;
  if py_in PInf crit then raise impossible
  else if py_in (Fin 0) crit then
    modify_self (set_weights (Some (np_zeros (length crit)))) ;;
    match py_index (Fin 0) crit with
    | Some i => modify_self (fun s => set_weights (<[i := Fin 1]> <$> weights s) s)
    | None => raise (ValueError "0.0 is not in list")
    end
  else
    let score := np_recip crit in
    modify_self (set_weights (Some (np_div score (np_sum score)))).

(** What Python's [sum] holds while it adds up series: the integer it
    starts from, then a series. *)
Inductive pysum : Type :=
  | SumInt (z : Z)
  | SumSeries (a : series).

(** [acc + x], as [sum] computes it; an integer on the left is handed to
    the series' reflected addition. *)
Definition py_add (acc : pysum) (x : series) : res pysum :=
  match acc with
  | SumInt z => Ret (SumSeries (ts_add_scalar x (Fin (inject_Z z))))
  | SumSeries a =>
      match ts_add a x with
      | Some r => Ret (SumSeries r)
      | None => Raise (ValueError "Two time series must have the same time index")
      end
  end.

(** [sum(l)] continued from the partial sum [acc] *)
Fixpoint py_sum_from (acc : pysum) (l : list series) : res pysum :=
  match l with
  | [] => Ret acc
  | x :: l' =>
      match py_add acc x with
      | Ret acc' => py_sum_from acc' l'
      | Raise e => Raise e
      end
  end.

Definition py_sum (l : list series) : res pysum := py_sum_from (SumInt 0) l.

(** [sum(map(lambda ts, weight: ts * weight, self.predictions, self.weights))];
    [map] stops at the shorter of the two sequences. *)
Definition combination_function : M pysum := fun h =>
  match weights (self h) with
  | Some ws => (py_sum (zip_with ts_mul (predictions (self h)) ws), h)
  | None => (Raise (TypeError "'NoneType' object is not iterable"), h)
  end.

End Program.

(** ** The weight derivation in binary64

    The three branches of [fit] that turn the criterion into weights, on
    IEEE binary64 numbers as Python and NumPy compute with them: round to
    nearest even, overflow to infinity.  The numbers and operations are those
    of the Standard Library's executable specification of IEEE arithmetic, at
    precision 53 and maximal exponent 1024.  NumPy adds the elements of longer
    arrays in an order of its own; the vectors evaluated in this file have two
    elements, or sums that are exact in any order. *)
Module Binary64.

Definition float : Type := spec_float.

(** The binary64 number nearest to [m * 2^e]. *)
Definition b64 (m e : Z) : float := binary_normalize 53 1024 m e false.

Definition zero : float := S754_zero false.
Definition one : float := b64 1 0.

Definition add : float -> float -> float := SFadd 53 1024.
Definition div : float -> float -> float := SFdiv 53 1024.

(** [x == y] and [x < y] *)
Definition eqb : float -> float -> bool := SFeqb.

(** [x in l] *)
Definition py_in (x : float) (l : list float) : bool := existsb (eqb x) l.

(** [l.index(x)] *)
Fixpoint py_index (x : float) (l : list float) : option nat :=
  match l with
  | [] => None
  | y :: l' => if eqb y x then Some 0%nat else S <$> py_index x l'
  end.

Definition np_zeros (n : nat) : list float := replicate n zero.
Definition np_recip (l : list float) : list float := div one <$> l.
Definition np_sum (a : list float) : float := foldl add zero a.
Definition np_div (a : list float) (s : float) : list float :=
  (fun x => div x s) <$> a.


End Binary64.

(** ** A small concrete evaluator

    A model is given by the loss it earns, a non-negative fraction, and by the
    number of points it needs: on a training series with fewer points (or on
    none) no evaluation is possible and the evaluator answers with the
    unbounded sentinel.  The world counts the evaluations performed. *)
Record toy_model : Type := mkToy {
  loss_num : N;
  loss_den : positive;
  needs : nat
}.

Definition toy_loss (m : toy_model) : scalar :=
  Fin (Z.of_N (loss_num m) # loss_den m).

Definition toy : Collaborators := {|
  world := nat;
  model := toy_model;
  metric := unit;
  groe ts m _ _ _ w :=
    (match ts with
     | Some s => if (needs m <=? length s)%nat then toy_loss m else PInf
     | None => PInf
     end, S w);
  models_fit _ _ w := w
|}.

Definition toy_heap (ms : list toy_model) (ps : list series) : @heap toy :=
  @mkHeap toy (@set_predictions toy ps (@init toy ms tt default_n_evaluations ∅))
          0%nat [].

Definition one_point : series := [(0%Z, Fin 1)].

Definition three_points : series := [(0%Z, Fin 1); (1%Z, Fin 2); (2%Z, Fin 4)].

(** ** Properties used to state the results *)

(** [x] is the number zero. *)
Definition is_zero (x : scalar) : Prop := seq x (Fin 0).

(** [x] is a finite number other than zero. *)
Definition finite_nonzero (x : scalar) : Prop :=
  match x with
  | Fin q => ¬ (q == 0)%Q
  | _ => False
  end.

(** What the spec lets the evaluator return: a non-negative loss or the
    unbounded sentinel. *)
Definition is_loss (x : scalar) : Prop :=
  match x with
  | Fin q => (0 <= q)%Q
  | PInf => True
  | _ => False
  end.

Definition evaluator_contract `{Collaborators} : Prop :=
  ∀ ts m mt n kw w, is_loss (groe ts m mt n kw w).1.

(** The invocation [c] was made with the configuration held by [s]. *)
Definition call_from `{Collaborators} (s : GROECombinationModel) (c : call) : Prop :=
  call_series c = train_ts s ∧ call_metric c = metrics s ∧
  call_n_evaluations c = n_evaluations s ∧ call_kwargs c = groe_kwargs s ∧
  ∃ w, call_result c =
       (groe (train_ts s) (call_model c) (metrics s) (n_evaluations s)
             (groe_kwargs s) w).1.

(** The weighted sum of the spec, [Σ_i w_i × p_i[t]]; a series without the
    timestamp contributes [nan]. *)
Fixpoint weighted_sum_at (t : Z) (ws : list scalar) (ps : list series) : scalar :=
  match ws, ps with
  | w :: ws', p :: ps' =>
      sadd (smul w (default NaN (value_at t p))) (weighted_sum_at t ws' ps')
  | _, _ => Fin 0
  end.



(** Every value of the series is a finite number. *)
Definition finite_series (p : series) : Prop :=
  ∀ tv, tv ∈ p → ∃ q, tv.2 = Fin q.

(** The evaluations of [fit] as a function: the evaluator is run on the
    models one after the other, each run in the world left by the one
    before; the result is the list of the invocations and the last world. *)
Fixpoint eval_models `{Collaborators} (ts : option series) (mt : metric)
    (n : pyval) (kw : gmap string pyval) (ms : list model) (w : world)
    : list call * world :=
  match ms with
  | [] => ([], w)
  | m :: ms' =>
      let '(r, w1) := groe ts m mt n kw w in
      let '(cs, w2) := eval_models ts mt n kw ms' w1 in
      (mkCall ts m mt n kw r :: cs, w2)
  end.

(** A second concrete evaluator, which does not keep to the contract: a
    model is the very number the evaluator answers with, whatever it is. *)
Definition echo : Collaborators := {|
  world := unit;
  model := scalar;
  metric := unit;
  groe _ m _ _ _ w := (m, w);
  models_fit _ _ w := w
|}.

Definition echo_heap (ms : list scalar) : @heap echo :=
  @mkHeap echo (@init echo ms tt default_n_evaluations ∅) tt [].

(** An instance that holds the weights [ws] and the predictions [ps]. *)
Definition combining_heap (ws : list scalar) (ps : list series) : @heap toy :=
  @mkHeap toy (@set_weights toy (Some ws) (self (toy_heap [] ps))) 0%nat [].

(** * Scalars: algebra up to the representation of fractions *)

Lemma seq_refl x : seq x x.
Proof. destruct x; simpl; auto with qarith. Qed.

Lemma seq_sym x y : seq x y → seq y x.
Proof. destruct x, y; simpl; auto with qarith. Qed.

Lemma seq_trans x y z : seq x y → seq y z → seq x z.
Proof.
  destruct x, y, z; simpl; try tauto.
  intros Hxy Hyz. by rewrite Hxy.
Qed.

#[export] Instance seq_equivalence : Equivalence seq.
Proof. split; [exact seq_refl | exact seq_sym | exact seq_trans]. Qed.

Lemma signed_inf_proper a b : (a == b)%Q → signed_inf a = signed_inf b.
Proof. intros E. unfold signed_inf. by rewrite E. Qed.

#[export] Instance sadd_proper : Proper (seq ==> seq ==> seq) sadd.
Proof.
  intros [a| | |] [b| | |] E1 [c| | |] [d| | |] E2; simpl in *; try tauto.
  by rewrite E1, E2.
Qed.

#[export] Instance smul_proper : Proper (seq ==> seq ==> seq) smul.
Proof.
  intros [a| | |] [b| | |] E1 [c| | |] [d| | |] E2; simpl in *; try tauto;
    try (rewrite (signed_inf_proper _ _ E1); apply seq_refl);
    try (rewrite (signed_inf_proper _ _ E2); apply seq_refl).
  by rewrite E1, E2.
Qed.

Lemma sadd_comm x y : seq (sadd x y) (sadd y x).
Proof. destruct x, y; simpl; auto. ring. Qed.

Lemma sadd_assoc x y z : seq (sadd x (sadd y z)) (sadd (sadd x y) z).
Proof. destruct x, y, z; simpl; auto. ring. Qed.

Lemma sadd_0_r x : seq (sadd x (Fin 0)) x.
Proof. destruct x; simpl; auto. ring. Qed.

Lemma sadd_0_l x : seq (sadd (Fin 0) x) x.
Proof. destruct x; simpl; auto. ring. Qed.

Lemma smul_comm x y : seq (smul x y) (smul y x).
Proof. destruct x, y; simpl; auto using seq_refl. ring. Qed.

(** * Python's membership and index on lists of floats *)

Lemma py_eq_sym x y : py_eq x y = py_eq y x.
Proof.
  destruct x as [a| | |], y as [b| | |]; simpl; try done.
  apply eq_true_iff_eq. rewrite !Qeq_bool_iff. split; intros E; by symmetry.
Qed.

Lemma py_eq_PInf y : py_eq PInf y = true ↔ y = PInf.
Proof. destruct y; simpl; split; congruence. Qed.

Lemma py_eq_zero y : py_eq (Fin 0) y = true ↔ is_zero y.
Proof.
  destruct y as [b| | |]; simpl; try (split; [discriminate | tauto]).
  rewrite Qeq_bool_iff. split; intros E; by symmetry.
Qed.

Lemma py_in_PInf l : py_in PInf l = true ↔ PInf ∈ l.
Proof.
  unfold py_in. rewrite existsb_exists. split.
  - intros (y & Hy & E). apply py_eq_PInf in E. subst. by apply list_elem_of_In.
  - intros Hin. exists PInf. split; [by apply list_elem_of_In | done].
Qed.

Lemma py_in_zero l : py_in (Fin 0) l = true ↔ ∃ x, x ∈ l ∧ is_zero x.
Proof.
  unfold py_in. rewrite existsb_exists. split.
  - intros (y & Hy & E). exists y. split; [by apply list_elem_of_In | by apply py_eq_zero].
  - intros (y & Hy & E). exists y. split; [by apply list_elem_of_In | by apply py_eq_zero].
Qed.

Lemma py_index_first l i :
  py_index (Fin 0) l = Some i →
  (∃ x, l !! i = Some x ∧ is_zero x) ∧
  (∀ j x, (j < i)%nat → l !! j = Some x → ¬ is_zero x).
Proof.
  revert i. induction l as [|y l IH]; intros i; simpl; [done|].
  destruct (py_eq y (Fin 0)) eqn:E.
  - intros [= <-]. split; [|intros; lia].
    exists y. split; [done|]. apply py_eq_zero. by rewrite py_eq_sym.
  - destruct (py_index (Fin 0) l) as [k|] eqn:Ek; simpl; [|done].
    intros [= <-]. destruct (IH k eq_refl) as [Hk Hlt]. split; [done|].
    intros [|j] x Hj; simpl.
    + intros [= <-] Hz. apply py_eq_zero in Hz. rewrite py_eq_sym in Hz. congruence.
    + apply Hlt. lia.
Qed.

Lemma py_index_found l :
  py_in (Fin 0) l = true → ∃ i, py_index (Fin 0) l = Some i.
Proof.
  unfold py_in. induction l as [|y l IH]; cbn [existsb py_index]; [done|].
  rewrite (py_eq_sym (Fin 0) y). destruct (py_eq y (Fin 0)); [eauto|].
  intros Hin. destruct (IH Hin) as [i ->]. simpl. eauto.
Qed.

(** * The evaluation loop and the shape of [fit] *)

Section Fit.
Context `{Collaborators}.

Lemma bind_run {A B} (m : M A) (f : A → M B) (h : heap) :
  (m ≫= f) h =
  match m h with
  | (Ret a, h') => f a h'
  | (Raise e, h') => (Raise e, h')
  end.
Proof. reflexivity. Qed.

(** The loop of [fit] invokes the evaluator once per model, in order,
    appending each answer to the criterion and each invocation to the log. *)
Lemma for_each_groe (ms : list model) (h : heap) (l0 : list scalar) :
  criterion (self h) = Some l0 →
  ∃ (new : list call) (w' : world),
    for_each ms (fun model => c ← call_groe model ; criterion_append c) h =
      (Ret tt,
       mkHeap (set_criterion (Some (l0 ++ (call_result <$> new))) (self h))
              w' (calls h ++ new)) ∧
    call_model <$> new = ms ∧
    Forall (call_from (self h)) new.
Proof.
  revert h l0. induction ms as [|m ms IH]; intros [s w cs] l0 Hc; simpl in Hc.
  - exists [], w. rewrite !app_nil_r. split_and!; [|done|constructor].
    destruct s; simpl in *; by subst.
  - cbn [for_each]. unfold mbind, M_bind at 1. unfold mbind, M_bind at 1.
    unfold call_groe at 1. cbn [self ext calls].
    destruct (groe (train_ts s) m (metrics s) (n_evaluations s) (groe_kwargs s) w)
      as [r w1] eqn:Eg.
    unfold criterion_append at 1. cbn [self ext calls]. rewrite Hc.
    edestruct (IH (mkHeap (set_criterion (Some (l0 ++ [r])) s) w1
                          (cs ++ [mkCall (train_ts s) m (metrics s)
                                         (n_evaluations s) (groe_kwargs s) r]))
                  (l0 ++ [r]) eq_refl) as (new & w' & Hrun & Hms & Hall).
    exists (mkCall (train_ts s) m (metrics s) (n_evaluations s) (groe_kwargs s) r :: new), w'.
    split_and!.
    + refine (eq_trans Hrun _). cbn [self ext calls]. rewrite fmap_cons.
      by rewrite <- !(assoc_L (++)).
    + by rewrite fmap_cons, Hms.
    + constructor.
      * unfold call_from; simpl. split_and!; try done. exists w. by rewrite Eg.
      * eapply Forall_impl; [exact Hall|]. intros c. unfold call_from; simpl. tauto.
Qed.

(** What [fit] returns and the state it leaves, by the three cases of its
    criterion. *)
Lemma fit_unfold (ts : series) (h : heap) :
  ∃ (new : list call) (w' : world),
    let crit := call_result <$> new in
    let s1 := set_criterion (Some crit) (set_train_ts (Some ts) (self h)) in
    call_model <$> new = models (self h) ∧
    Forall (call_from (set_train_ts (Some ts) (self h))) new ∧
    fit ts h =
      if py_in PInf crit then
        (Raise impossible, mkHeap s1 w' (calls h ++ new))
      else if py_in (Fin 0) crit then
        match py_index (Fin 0) crit with
        | Some i =>
            (Ret tt,
             mkHeap (set_weights (Some (<[i := Fin 1]> (np_zeros (length crit)))) s1)
                    w' (calls h ++ new))
        | None =>
            (Raise (ValueError "0.0 is not in list"),
             mkHeap (set_weights (Some (np_zeros (length crit))) s1)
                    w' (calls h ++ new))
        end
      else
        (Ret tt,
         mkHeap (set_weights (Some (np_div (np_recip crit) (np_sum (np_recip crit)))) s1)
                w' (calls h ++ new)).
Proof.
  destruct h as [s w cs].
  destruct (for_each_groe (models s)
              (mkHeap (set_criterion (Some []) (set_train_ts (Some ts) s))
                      (models_fit ts (models s) w) cs) [] eq_refl)
    as (new & w' & Hrun & Hms & Hall).
  exists new, w'. cbn zeta. split_and!; [done| |].
  - eapply Forall_impl; [exact Hall|]. intros c. unfold call_from; simpl. tauto.
  - cbn [self ext calls set_criterion set_train_ts models app] in Hrun.
    unfold fit.
    rewrite bind_run. unfold super_fit. cbv beta iota.
    rewrite bind_run. unfold modify_self at 1. cbv beta iota.
    rewrite bind_run. unfold get_self at 1. cbv beta iota.
    rewrite bind_run.
    cbn [self ext calls set_criterion set_train_ts models].
    rewrite Hrun.
    rewrite bind_run. unfold get_criterion at 1.
    cbn [self ext calls criterion set_criterion].
    destruct (py_in PInf (call_result <$> new)); [done|].
    destruct (py_in (Fin 0) (call_result <$> new)); [|done].
    rewrite bind_run. unfold modify_self at 1. cbv beta iota.
    destruct (py_index (Fin 0) (call_result <$> new)); done.
Qed.

End Fit.

(** * Sums of rationals and of scalars *)

Lemma foldl_Qplus_acc (a : Q) (l : list Q) :
  (foldl Qplus a l == a + foldl Qplus 0 l)%Q.
Proof.
  revert a. induction l as [|x l IH]; intros a; simpl.
  - ring.
  - rewrite (IH (a + x)%Q), (IH (0 + x)%Q). ring.
Qed.



Lemma np_sum_Fin_acc (a : Q) (l : list Q) :
  foldl sadd (Fin a) (Fin <$> l) = Fin (foldl Qplus a l).
Proof. revert a. induction l as [|x l IH]; intros a; simpl; [done|]. apply IH. Qed.

Lemma np_sum_Fin (l : list Q) : np_sum (Fin <$> l) = Fin (foldl Qplus 0%Q l).
Proof. apply np_sum_Fin_acc. Qed.

Lemma foldl_sadd_acc (a : scalar) (l : list scalar) :
  seq (foldl sadd a l) (sadd a (foldl sadd (Fin 0) l)).
Proof.
  revert a. induction l as [|x l IH]; intros a; simpl.
  - symmetry. apply sadd_0_r.
  - rewrite (IH (sadd a x)), (IH (sadd (Fin 0) x)).
    rewrite (sadd_0_l x). symmetry. apply sadd_assoc.
Qed.

Lemma np_sum_cons (x : scalar) (l : list scalar) :
  seq (np_sum (x :: l)) (sadd x (np_sum l)).
Proof.
  unfold np_sum. simpl. rewrite foldl_sadd_acc. by rewrite (sadd_0_l x).
Qed.

Lemma np_sum_zeros (n : nat) : seq (np_sum (np_zeros n)) (Fin 0).
Proof.
  induction n as [|n IH]; [apply seq_refl|].
  unfold np_zeros in *. simpl replicate. rewrite np_sum_cons, IH. simpl. ring.
Qed.

(** A vector of zeros with a single one sums to one. *)
Lemma np_sum_one_hot (n i : nat) :
  (i < n)%nat → seq (np_sum (<[i := Fin 1]> (np_zeros n))) (Fin 1).
Proof.
  revert i. induction n as [|n IH]; intros i Hi; [lia|].
  unfold np_zeros in *. destruct i as [|i]; simpl.
  - rewrite np_sum_cons. etrans; [apply sadd_proper; [reflexivity | apply np_sum_zeros]|].
    simpl. ring.
  - rewrite np_sum_cons, (IH i) by lia. simpl. ring.
Qed.

(** * Vectors of finite numbers *)

Lemma finite_list (l : list scalar) :
  (∀ x, x ∈ l → ∃ q, x = Fin q) → ∃ qs, l = Fin <$> qs.
Proof.
  induction l as [|x l IH]; intros Hl.
  - by exists [].
  - destruct (Hl x) as [q ->]; [left|].
    destruct IH as [qs ->]; [intros y Hy; apply Hl; by right|].
    by exists (q :: qs).
Qed.



(** * The three outcomes of [fit] *)

Section FitCases.
Context `{Collaborators}.

Lemma calls_are_losses (s : GROECombinationModel) (new : list call) :
  evaluator_contract → Forall (call_from s) new →
  Forall is_loss (call_result <$> new).
Proof.
  intros Hc. induction 1 as [|c new Hcall _ IH]; [constructor|].
  rewrite fmap_cons. constructor; [|done].
  destruct Hcall as (_ & _ & _ & _ & w & ->). apply Hc.
Qed.

(** After [fit] the criterion holds one answer of the evaluator per model,
    and the call ended in exactly one of three ways. *)
Lemma fit_cases (ts : series) (h : heap) :
  ∃ crit : list scalar,
    criterion (self (fit ts h).2) = Some crit ∧
    length crit = length (models (self h)) ∧
    models (self (fit ts h).2) = models (self h) ∧
    (evaluator_contract → Forall is_loss crit) ∧
    ((PInf ∈ crit ∧ (fit ts h).1 = Raise impossible ∧
      weights (self (fit ts h).2) = weights (self h))
     ∨ ((PInf ∉ crit) ∧ (fit ts h).1 = Ret tt ∧
        ∃ i, py_index (Fin 0) crit = Some i ∧
             weights (self (fit ts h).2) =
               Some (<[i := Fin 1]> (np_zeros (length crit))))
     ∨ ((PInf ∉ crit) ∧ (∀ x, x ∈ crit → ¬ is_zero x) ∧ (fit ts h).1 = Ret tt ∧
        weights (self (fit ts h).2) =
          Some (np_div (np_recip crit) (np_sum (np_recip crit))))).
Proof.
  destruct (fit_unfold ts h) as (new & w' & Hms & Hall & Hfit). cbn zeta in Hfit.
  exists (call_result <$> new).
  assert (length (call_result <$> new) = length (models (self h))) as Hlen.
  { by rewrite <- Hms, !length_fmap. }
  assert (evaluator_contract → Forall is_loss (call_result <$> new)) as Hloss.
  { intros Hc. by eapply calls_are_losses. }
  destruct (py_in PInf (call_result <$> new)) eqn:Einf.
  { rewrite Hfit. split_and!; try done. left. split_and!; try done.
    by apply py_in_PInf. }
  assert (PInf ∉ call_result <$> new) as Hno.
  { intros Hin. apply py_in_PInf in Hin. congruence. }
  destruct (py_in (Fin 0) (call_result <$> new)) eqn:Ezero.
  - destruct (py_index_found _ Ezero) as [i Hi]. rewrite Hi in Hfit. rewrite Hfit.
    split_and!; try done. right; left. split_and!; try done. by exists i.
  - rewrite Hfit. split_and!; try done. right; right. split_and!; try done.
    intros x Hx Hz. assert (py_in (Fin 0) (call_result <$> new) = true); [|congruence].
    apply py_in_zero. eauto.
Qed.

End FitCases.

(** * Configuration update *)

Section Update.
Context `{Collaborators}.

Lemma update_groe_params_run (kw : gmap string pyval) (h : heap) :
  update_groe_params kw h =
  (Ret tt,
   mkHeap (set_groe_kwargs (delete "n_evaluations" kw)
             (set_n_evaluations
                (default (n_evaluations (self h)) (kw !! "n_evaluations"))
                (self h)))
          (ext h) (calls h)).
Proof.
  unfold update_groe_params. destruct (kw !! "n_evaluations") as [n|] eqn:E.
  - reflexivity.
  - rewrite delete_id by done. destruct h as [[] ? ?]. reflexivity.
Qed.

(** C7.  [update_groe_params] replaces the auxiliary options by the supplied
    mapping, without merging: what is stored depends on the supplied mapping
    alone.  When the supplied mapping has an [n_evaluations] entry, its value
    becomes the stored evaluation count and the entry is removed from the
    stored options; otherwise the evaluation count keeps its value and the
    stored options are the supplied mapping itself. *)
Theorem update_groe_params_replaces (kw : gmap string pyval) (h : heap) :
  let h' := (update_groe_params kw h).2 in
  (update_groe_params kw h).1 = Ret tt ∧
  groe_kwargs (self h') = delete "n_evaluations" kw ∧
  groe_kwargs (self h') !! "n_evaluations" = None ∧
  (∀ k, k ≠ "n_evaluations" → groe_kwargs (self h') !! k = kw !! k) ∧
  match kw !! "n_evaluations" with
  | Some n => n_evaluations (self h') = n
  | None =>
      n_evaluations (self h') = n_evaluations (self h) ∧
      groe_kwargs (self h') = kw
  end.
Proof.
  cbn zeta. rewrite update_groe_params_run. cbn [fst snd self groe_kwargs
    set_groe_kwargs n_evaluations set_n_evaluations].
  split_and!; [done|done|apply lookup_delete_eq| |].
  - intros k Hk. by apply lookup_delete_ne.
  - destruct (kw !! "n_evaluations") eqn:E; [done|].
    split; [done|]. by apply delete_id.
Qed.

(** C8.  [update_groe_params] leaves the criterion and the weights as they
    are; of the instance it writes the evaluation count and the auxiliary
    options only, and it neither touches the outside world nor invokes the
    evaluator. *)
Theorem update_groe_params_frame (kw : gmap string pyval) (h : heap) :
  let h' := (update_groe_params kw h).2 in
  criterion (self h') = criterion (self h) ∧
  weights (self h') = weights (self h) ∧
  models (self h') = models (self h) ∧
  train_ts (self h') = train_ts (self h) ∧
  predictions (self h') = predictions (self h) ∧
  metrics (self h') = metrics (self h) ∧
  ext h' = ext h ∧
  calls h' = calls h.
Proof. cbn zeta. rewrite update_groe_params_run. by split_and!. Qed.

End Update.

(** * Weight derivation *)

Section FitClaims.
Context `{Collaborators}.

(** C9.  During [fit] the evaluator is invoked exactly once for every model
    of the list, in list order and with the configuration of the instance,
    whatever the answers are: the log grows by one invocation per model also
    when an answer was the unbounded sentinel, and [fit] fails with the
    evaluation-impossible error exactly when one of these answers is the
    sentinel. *)
Theorem fit_evaluates_every_model (ts : series) (h : heap) :
  ∃ new : list call,
    calls (fit ts h).2 = calls h ++ new ∧
    call_model <$> new = models (self h) ∧
    Forall (call_from (set_train_ts (Some ts) (self h))) new ∧
    ((fit ts h).1 = Raise impossible ↔ PInf ∈ call_result <$> new).
Proof.
  destruct (fit_unfold ts h) as (new & w' & Hms & Hall & Hfit). cbn zeta in Hfit.
  exists new. rewrite <- py_in_PInf.
  destruct (py_in PInf (call_result <$> new)) eqn:Einf.
  { by rewrite Hfit. }
  destruct (py_in (Fin 0) (call_result <$> new)) eqn:Ezero.
  - destruct (py_index_found _ Ezero) as [i Hi]. rewrite Hi in Hfit. by rewrite Hfit.
  - by rewrite Hfit.
Qed.

(** C10.  When [fit] fails with the evaluation-impossible error, the stored
    criterion is the vector of the answers the evaluator has just given, one
    per model and the sentinel among them, and not the criterion held before
    the call. *)
Theorem fit_failure_stores_criterion (ts : series) (h : heap) :
  (fit ts h).1 = Raise impossible →
  ∃ new : list call,
    calls (fit ts h).2 = calls h ++ new ∧
    call_model <$> new = models (self h) ∧
    Forall (call_from (set_train_ts (Some ts) (self h))) new ∧
    criterion (self (fit ts h).2) = Some (call_result <$> new) ∧
    PInf ∈ call_result <$> new.
Proof.
  destruct (fit_unfold ts h) as (new & w' & Hms & Hall & Hfit). cbn zeta in Hfit.
  intros Hfail. exists new. rewrite <- py_in_PInf.
  destruct (py_in PInf (call_result <$> new)) eqn:Einf.
  { by rewrite Hfit. }
  exfalso. rewrite Hfit in Hfail.
  destruct (py_in (Fin 0) (call_result <$> new)); [|done].
  destruct (py_index (Fin 0) (call_result <$> new)); done.
Qed.

(** C1, as the code has it.  If an entry of the criterion computed by [fit]
    is the unbounded sentinel, [fit] fails with the evaluation-impossible
    error and assigns no weights: the weights attribute is left as it was
    before the call. *)
Theorem fit_unbounded_fails (ts : series) (h : heap) (crit : list scalar) :
  criterion (self (fit ts h).2) = Some crit →
  PInf ∈ crit →
  (fit ts h).1 = Raise impossible ∧
  weights (self (fit ts h).2) = weights (self h).
Proof.
  intros Hcrit Hinf.
  destruct (fit_cases ts h) as (crit' & Hc & _ & _ & _ & Hcase).
  rewrite Hcrit in Hc. injection Hc as <-.
  destruct Hcase as [(_ & ? & ?)|[(Hno & _)|(Hno & _)]]; done.
Qed.

(** C2.  If no entry of the criterion computed by [fit] is the unbounded
    sentinel and some entry is zero, [fit] succeeds and the weights are
    one-hot: with [k] the first position whose criterion is zero, the weight
    at [k] is 1 and every other weight is 0, also where the criterion is
    zero again. *)
Theorem fit_zero_criterion_one_hot (ts : series) (h : heap) (crit : list scalar) :
  criterion (self (fit ts h).2) = Some crit →
  PInf ∉ crit →
  (∃ x, x ∈ crit ∧ is_zero x) →
  (fit ts h).1 = Ret tt ∧
  ∃ (k : nat) (ws : list scalar),
    weights (self (fit ts h).2) = Some ws ∧
    length ws = length crit ∧
    (∃ x, crit !! k = Some x ∧ is_zero x) ∧
    (∀ j x, (j < k)%nat → crit !! j = Some x → ¬ is_zero x) ∧
    ws !! k = Some (Fin 1) ∧
    (∀ j, j ≠ k → (j < length crit)%nat → ws !! j = Some (Fin 0)).
Proof.
  intros Hcrit Hno (x & Hx & Hz).
  destruct (fit_cases ts h) as (crit' & Hc & _ & _ & _ & Hcase).
  rewrite Hcrit in Hc. injection Hc as <-.
  destruct Hcase as [(Hin & _)|[(_ & Hret & i & Hi & Hw)|(_ & Hnz & _)]].
  - done.
  - split; [done|]. exists i, (<[i := Fin 1]> (np_zeros (length crit))).
    destruct (py_index_first _ _ Hi) as [(y & Hy & Hyz) Hfirst].
    assert (i < length crit)%nat as Hlt by by eapply lookup_lt_Some.
    unfold np_zeros. split_and!; try done.
    + by rewrite length_insert, length_replicate.
    + by exists y.
    + apply list_lookup_insert_eq. by rewrite length_replicate.
    + intros j Hj Hjlt. rewrite list_lookup_insert_ne by done.
      by apply lookup_replicate_2.
  - exfalso. by eapply Hnz.
Qed.

End FitClaims.

(** * The reciprocal branch over the rationals *)

Lemma finite_nonzero_list (l : list scalar) :
  (∀ x, x ∈ l → finite_nonzero x) →
  ∃ qs, l = Fin <$> qs ∧ Forall (fun q => ¬ (q == 0)%Q) qs.
Proof.
  induction l as [|x l IH]; intros Hl.
  - exists []. by split.
  - destruct IH as (qs & -> & Hqs); [intros y Hy; apply Hl; by right|].
    assert (finite_nonzero x) as Hx by (apply Hl; left).
    destruct x as [q| | |]; try done.
    exists (q :: qs). split; [done|]. by constructor.
Qed.






(** * Sums as the spec writes them *)





Section WeightClaims.
Context `{Collaborators}.




End WeightClaims.

(** * Combination of the predictions *)

Lemma times_ts_mul (p : series) (w : scalar) : times (ts_mul p w) = times p.
Proof. unfold times, ts_mul. rewrite <- list_fmap_compose. by apply list_fmap_ext. Qed.

Lemma times_ts_add_scalar (p : series) (x : scalar) :
  times (ts_add_scalar p x) = times p.
Proof.
  unfold times, ts_add_scalar. rewrite <- list_fmap_compose. by apply list_fmap_ext.
Qed.

Lemma value_at_ts_mul (t : Z) (p : series) (w : scalar) :
  value_at t (ts_mul p w) = (fun v => smul v w) <$> value_at t p.
Proof.
  unfold value_at, ts_mul. induction p as [|[t' v] p IH]; [done|].
  rewrite fmap_cons. cbn [find fst snd]. by destruct (bool_decide (t' = t)).
Qed.

Lemma value_at_ts_add_scalar (t : Z) (p : series) (x : scalar) :
  value_at t (ts_add_scalar p x) = (fun v => sadd v x) <$> value_at t p.
Proof.
  unfold value_at, ts_add_scalar. induction p as [|[t' v] p IH]; [done|].
  rewrite fmap_cons. cbn [find fst snd]. by destruct (bool_decide (t' = t)).
Qed.

Lemma value_at_member (t : Z) (p : series) :
  t ∈ times p → ∃ v, value_at t p = Some v.
Proof.
  unfold times, value_at. induction p as [|[t' v] p IH]; rewrite ?fmap_cons.
  - by intros ?%elem_of_nil.
  - cbn [find fst snd]. intros Hin. destruct (bool_decide (t' = t)) eqn:E; [by eexists|].
    apply bool_decide_eq_false in E. apply elem_of_cons in Hin as [->|Hin]; [done|].
    by apply IH.
Qed.

(** Two series over the same timestamps are added value by value. *)
Lemma ts_add_same_times (a b : series) :
  times a = times b →
  ∃ c, ts_add a b = Some c ∧ times c = times a ∧
       ∀ t va, value_at t a = Some va →
         ∃ vb, value_at t b = Some vb ∧ value_at t c = Some (sadd va vb).
Proof.
  intros Ht. unfold ts_add. rewrite decide_True by done.
  eexists. split; [done|]. clear -Ht. unfold times, value_at in *.
  revert b Ht. induction a as [|[ta va] a IH]; intros [|[tb vb] b] Ht; try done.
  rewrite !fmap_cons in Ht. injection Ht as -> Ht. destruct (IH b Ht) as [IH1 IH2].
  split.
  - cbn [zip_with fst snd]. rewrite fmap_cons. by rewrite IH1.
  - intros t v. cbn [zip_with find fst snd].
    destruct (bool_decide (tb = t)); [|by apply IH2].
    simpl. intros [= <-]. by eexists.
Qed.

(** Adding the weighted predictions onto a partial sum over the same
    timestamps. *)
Lemma py_sum_from_weighted (ps : list series) (ws : list scalar) (acc : series)
    (ix : list Z) :
  times acc = ix →
  (∀ p, p ∈ ps → times p = ix) →
  ∃ out,
    py_sum_from (SumSeries acc) (zip_with ts_mul ps ws) = Ret (SumSeries out) ∧
    times out = ix ∧
    ∀ t va, value_at t acc = Some va →
      ∃ v, value_at t out = Some v ∧ seq v (sadd va (weighted_sum_at t ws ps)).
Proof.
  revert ws acc. induction ps as [|p ps IH]; intros ws acc Hacc Hps.
  { exists acc. split_and!; [done|done|]. intros t va Hva. exists va.
    split; [done|]. destruct ws; symmetry; apply sadd_0_r. }
  destruct ws as [|w ws].
  { exists acc. split_and!; [done|done|]. intros t va Hva. exists va.
    split; [done|]. symmetry; apply sadd_0_r. }
  cbn [zip_with py_sum_from py_add].
  destruct (ts_add_same_times acc (ts_mul p w)) as (c & -> & Hc & Hval).
  { rewrite times_ts_mul, Hacc. symmetry. apply Hps. left. }
  destruct (IH ws c) as (out & Hrun & Hout & Hsum).
  { by rewrite Hc. }
  { intros q Hq. apply Hps. by right. }
  exists out. split_and!; [exact Hrun|done|].
  intros t va Hva. destruct (Hval t va Hva) as (vb & Hvb & Hvc).
  destruct (Hsum t _ Hvc) as (v & Hv & Hseq).
  exists v. split; [done|]. rewrite Hseq.
  rewrite value_at_ts_mul in Hvb.
  destruct (value_at t p) as [vp|] eqn:Evp; [|done]. injection Hvb as <-.
  cbn [weighted_sum_at]. rewrite Evp. cbn [default]. rewrite <- sadd_assoc.
  apply sadd_proper; [reflexivity|].
  apply sadd_proper; [apply smul_comm | reflexivity].
Qed.

Section Combination.
Context `{Collaborators}.

(** C6.  With weights of the same length as the list of predictions, and
    predictions over the same timestamps, [combination_function] returns,
    without changing the state, a series over these timestamps whose value at
    every timestamp [t] is the weighted sum [Σ_i w_i × p_i[t]].  For the
    weights [0.2, 0.4, 0.4] and the single-point predictions 10, 20 and 30 at
    one timestamp, the combined value at that timestamp is 22. *)
Theorem combination_function_weighted_sum :
  (∀ (h : heap) (ws : list scalar) (ix : list Z),
     weights (self h) = Some ws →
     length ws = length (predictions (self h)) →
     predictions (self h) ≠ [] →
     (∀ p, p ∈ predictions (self h) → times p = ix) →
     ∃ out : series,
       combination_function h = (Ret (SumSeries out), h) ∧
       times out = ix ∧
       ∀ t, t ∈ ix →
         ∃ v, value_at t out = Some v ∧
              seq v (weighted_sum_at t ws (predictions (self h)))) ∧
  (∀ (h : heap) (t : Z),
     weights (self h) = Some [Fin 0.2; Fin 0.4; Fin 0.4] →
     predictions (self h) = [[(t, Fin 10)]; [(t, Fin 20)]; [(t, Fin 30)]] →
     ∃ v, combination_function h = (Ret (SumSeries [(t, v)]), h) ∧
          seq v (Fin 22)).
Proof.
  assert (∀ (h : heap) (ws : list scalar) (ix : list Z),
     weights (self h) = Some ws →
     length ws = length (predictions (self h)) →
     predictions (self h) ≠ [] →
     (∀ p, p ∈ predictions (self h) → times p = ix) →
     ∃ out : series,
       combination_function h = (Ret (SumSeries out), h) ∧
       times out = ix ∧
       ∀ t, t ∈ ix →
         ∃ v, value_at t out = Some v ∧
              seq v (weighted_sum_at t ws (predictions (self h)))) as General.
  { intros h ws ix Hw Hlen Hne Hix. unfold combination_function. rewrite Hw.
    destruct (predictions (self h)) as [|p ps]; [done|].
    destruct ws as [|w ws]; [done|].
    unfold py_sum. cbn [zip_with py_sum_from py_add].
    destruct (py_sum_from_weighted ps ws
                (ts_add_scalar (ts_mul p w) (Fin (inject_Z 0))) ix)
      as (out & -> & Hout & Hsum).
    { rewrite times_ts_add_scalar, times_ts_mul. apply Hix. left. }
    { intros q Hq. apply Hix. by right. }
    exists out. split_and!; [done|done|].
    intros t Ht. rewrite <- (Hix p) in Ht by left.
    destruct (value_at_member t p Ht) as [vp Hvp].
    destruct (Hsum t (sadd (smul vp w) (Fin (inject_Z 0)))) as (v & Hv & Hseq).
    { by rewrite value_at_ts_add_scalar, value_at_ts_mul, Hvp. }
    exists v. split; [done|]. rewrite Hseq.
    cbn [weighted_sum_at]. rewrite Hvp. cbn [default].
    apply sadd_proper; [|reflexivity].
    etrans; [apply sadd_0_r|]. apply smul_comm. }
  split; [exact General|].
  intros h t Hw Hp.
  destruct (General h _ [t] Hw) as (out & Hrun & Hout & Hsum).
  { by rewrite Hp. }
  { by rewrite Hp. }
  { intros p. rewrite Hp. intros Hin.
    repeat (apply elem_of_cons in Hin as [->|Hin]; [done|]).
    by apply elem_of_nil in Hin. }
  destruct (Hsum t) as (v & Hv & Hseq); [left|].
  destruct out as [|[t' v'] [|? ?]]; try done.
  unfold times in Hout. rewrite fmap_cons in Hout. injection Hout as ->.
  unfold value_at in Hv. cbn [find fst snd] in Hv.
  rewrite bool_decide_eq_true_2 in Hv by done. injection Hv as ->.
  exists v. split; [done|]. rewrite Hseq, Hp.
  unfold weighted_sum_at, value_at. cbn [find fst snd].
  rewrite bool_decide_eq_true_2 by done. simpl. reflexivity.
Qed.

End Combination.

(** * The results on the concrete evaluator *)

Lemma toy_contract : @evaluator_contract toy.
Proof.
  intros ts m mt n kw w. simpl.
  destruct ts as [s|]; [destruct (needs m <=? length s)%nat|]; simpl; try done.
  unfold Qle. simpl. lia.
Qed.

(** C1, as stated, fails.  Two models are fitted on three points: both can be
    evaluated and the weights are 2/3 and 1/3.  The same instance is then
    fitted on a single point: the second model cannot be evaluated, the
    criterion is [1, inf] and [fit] raises; the weights of the first fit are
    still stored and [combination_function] still combines with them. *)
Lemma failed_fit_keeps_earlier_weights :
  let h0 := toy_heap [mkToy 1 1 1; mkToy 2 1 3]
                     [[(0%Z, Fin 10)]; [(0%Z, Fin 20)]] in
  let h1 := (fit three_points h0).2 in
  let h2 := (fit one_point h1).2 in
  (fit three_points h0).1 = Ret tt ∧
  weights (self h1) = Some [Fin (2 # 3); Fin (2 # 6)] ∧
  (fit one_point h1).1 = Raise impossible ∧
  criterion (self h2) = Some [Fin 1; PInf] ∧
  weights (self h2) = Some [Fin (2 # 3); Fin (2 # 6)] ∧
  weights (self h2) ≠ None ∧
  (combination_function h2).1 = Ret (SumSeries [(0%Z, Fin (240 # 18))]).
Proof. vm_compute. by split_and!. Qed.

Lemma fit_unbounded_fails_witness :
  let h := toy_heap [mkToy 1 1 1; mkToy 2 1 3] [] in
  criterion (self (fit one_point h).2) = Some [Fin 1; PInf] ∧
  (fit one_point h).1 = Raise impossible ∧
  weights (self (fit one_point h).2) = weights (self h).
Proof.
  intros h. split; [reflexivity|].
  apply (fit_unbounded_fails (H := toy) one_point h [Fin 1; PInf]).
  - reflexivity.
  - right. left.
Defined.

Lemma fit_zero_criterion_one_hot_witness :
  let h := toy_heap [mkToy 1 2 1; mkToy 0 1 1; mkToy 0 1 1] [] in
  criterion (self (fit one_point h).2) = Some [Fin (1 # 2); Fin 0; Fin 0] ∧
  weights (self (fit one_point h).2) = Some [Fin 0; Fin 1; Fin 0] ∧
  ∃ (k : nat) (ws : list scalar),
    weights (self (fit one_point h).2) = Some ws ∧
    ws !! k = Some (Fin 1) ∧
    (∀ j, j ≠ k → (j < 3)%nat → ws !! j = Some (Fin 0)).
Proof.
  intros h. split; [reflexivity|]. split; [reflexivity|].
  destruct (fit_zero_criterion_one_hot (H := toy) one_point h
              [Fin (1 # 2); Fin 0; Fin 0])
    as (_ & k & ws & Hw & _ & _ & _ & Hk & Hother).
  - reflexivity.
  - intros Hin. apply list_elem_of_In in Hin. simpl in Hin.
    destruct Hin as [?|[?|[?|[]]]]; discriminate.
  - exists (Fin 0). split; [right; left | reflexivity].
  - exists k, ws. split; [exact Hw|]. split; [exact Hk | exact Hother].
Defined.

Lemma fit_failure_stores_criterion_witness :
  let h := toy_heap [mkToy 1 1 1; mkToy 2 1 3] [] in
  (fit one_point h).1 = Raise impossible ∧
  ∃ new : list (@call toy),
    criterion (self (fit one_point h).2) = Some (call_result <$> new) ∧
    PInf ∈ call_result <$> new.
Proof.
  intros h. split; [reflexivity|].
  destruct (fit_failure_stores_criterion (H := toy) one_point h eq_refl)
    as (new & _ & _ & _ & Hc & Hin).
  exists new. split; [exact Hc | exact Hin].
Defined.

Lemma combination_function_weighted_sum_witness :
  let h := @mkHeap toy
             (@set_weights toy (Some [Fin 0.2; Fin 0.4; Fin 0.4])
                (self (toy_heap [] [[(7%Z, Fin 10)]; [(7%Z, Fin 20)]; [(7%Z, Fin 30)]])))
             0%nat [] in
  ∃ v, combination_function h = (Ret (SumSeries [(7%Z, v)]), h) ∧ seq v (Fin 22).
Proof.
  intros h.
  apply (proj2 (combination_function_weighted_sum (H := toy)) h 7%Z);
    reflexivity.
Defined.

Lemma update_groe_params_replaces_witness :
  let kw : gmap string pyval :=
    <["n_evaluations" := PyInt 3]> (<["stride" := PyInt 2]> ∅) in
  let h := (update_groe_params (<["first_origin" := PyInt 5]> ∅)
              (toy_heap [] [])).2 in
  let h' := (update_groe_params kw h).2 in
  n_evaluations (self h') = PyInt 3 ∧
  groe_kwargs (self h') !! "n_evaluations" = None ∧
  groe_kwargs (self h') !! "stride" = Some (PyInt 2) ∧
  groe_kwargs (self h') !! "first_origin" = None.
Proof.
  intros kw h h'.
  destruct (update_groe_params_replaces (H := toy) kw h)
    as (_ & Heq & Hnone & Hother & Hn).
  change (kw !! "n_evaluations") with (Some (PyInt 3)) in Hn.
  split; [exact Hn|]. split; [exact Hnone|].
  split.
  - exact (eq_trans (Hother "stride" ltac:(discriminate)) eq_refl).
  - exact (eq_trans (Hother "first_origin" ltac:(discriminate)) eq_refl).
Defined.

(** * Further properties of [fit] *)

Section FitRun.
Context `{Collaborators}.

(** The loop of [fit] computes [eval_models]. *)
Lemma for_each_groe_eval (ms : list model) (h : heap) (l0 : list scalar) :
  criterion (self h) = Some l0 →
  for_each ms (fun model => c ← call_groe model ; criterion_append c) h =
  (Ret tt,
   mkHeap
     (set_criterion
        (Some (l0 ++ (call_result <$>
                 (eval_models (train_ts (self h)) (metrics (self h))
                    (n_evaluations (self h)) (groe_kwargs (self h)) ms (ext h)).1)))
        (self h))
     (eval_models (train_ts (self h)) (metrics (self h))
        (n_evaluations (self h)) (groe_kwargs (self h)) ms (ext h)).2
     (calls h ++
      (eval_models (train_ts (self h)) (metrics (self h))
         (n_evaluations (self h)) (groe_kwargs (self h)) ms (ext h)).1)).
Proof.
  revert h l0. induction ms as [|m ms IH]; intros [s w cs] l0 Hc; simpl in Hc.
  - cbn [eval_models fst snd self ext calls]. rewrite fmap_nil, !app_nil_r.
    destruct s; simpl in *; by subst.
  - cbn [for_each]. rewrite bind_run, bind_run.
    unfold call_groe at 1. cbn [self ext calls eval_models].
    destruct (groe (train_ts s) m (metrics s) (n_evaluations s) (groe_kwargs s) w)
      as [r w1] eqn:Eg.
    unfold criterion_append at 1. cbn [self ext calls]. rewrite Hc.
    specialize (IH (mkHeap (set_criterion (Some (l0 ++ [r])) s) w1
                      (cs ++ [mkCall (train_ts s) m (metrics s)
                                     (n_evaluations s) (groe_kwargs s) r]))
                   (l0 ++ [r]) eq_refl).
    cbn [self ext calls set_criterion train_ts metrics n_evaluations groe_kwargs] in IH.
    refine (eq_trans IH _).
    destruct (eval_models (train_ts s) (metrics s) (n_evaluations s)
                (groe_kwargs s) ms w1) as [cs' w2].
    cbn [fst snd]. rewrite fmap_cons. cbn [call_result].
    by rewrite <- !(assoc_L (++)).
Qed.

(** [fit], with the evaluations written as [eval_models]. *)
Lemma fit_run (ts : series) (h : heap) :
  let s0 := self h in
  let r := eval_models (Some ts) (metrics s0) (n_evaluations s0) (groe_kwargs s0)
             (models s0) (models_fit ts (models s0) (ext h)) in
  let crit := call_result <$> r.1 in
  let s1 := set_criterion (Some crit) (set_train_ts (Some ts) s0) in
  fit ts h =
    if py_in PInf crit then
      (Raise impossible, mkHeap s1 r.2 (calls h ++ r.1))
    else if py_in (Fin 0) crit then
      match py_index (Fin 0) crit with
      | Some i =>
          (Ret tt,
           mkHeap (set_weights (Some (<[i := Fin 1]> (np_zeros (length crit)))) s1)
                  r.2 (calls h ++ r.1))
      | None =>
          (Raise (ValueError "0.0 is not in list"),
           mkHeap (set_weights (Some (np_zeros (length crit))) s1)
                  r.2 (calls h ++ r.1))
      end
    else
      (Ret tt,
       mkHeap (set_weights (Some (np_div (np_recip crit) (np_sum (np_recip crit)))) s1)
              r.2 (calls h ++ r.1)).
Proof.
  destruct h as [s w cs]. cbn zeta. cbn [self ext calls].
  pose proof (for_each_groe_eval (models s)
                (mkHeap (set_criterion (Some []) (set_train_ts (Some ts) s))
                        (models_fit ts (models s) w) cs) [] eq_refl) as Hrun.
  cbn [self ext calls set_criterion set_train_ts models train_ts metrics
       n_evaluations groe_kwargs app] in Hrun.
  unfold fit.
  rewrite bind_run. unfold super_fit. cbv beta iota.
  rewrite bind_run. unfold modify_self at 1. cbv beta iota.
  rewrite bind_run. unfold get_self at 1. cbv beta iota.
  rewrite bind_run.
  cbn [self ext calls set_criterion set_train_ts models].
  rewrite Hrun.
  rewrite bind_run. unfold get_criterion at 1.
  cbn [self ext calls criterion set_criterion].
  set (r := eval_models (Some ts) (metrics s) (n_evaluations s) (groe_kwargs s)
              (models s) (models_fit ts (models s) w)).
  destruct (py_in PInf (call_result <$> r.1)); [done|].
  destruct (py_in (Fin 0) (call_result <$> r.1)); [|done].
  rewrite bind_run. unfold modify_self at 1. cbv beta iota.
  destruct (py_index (Fin 0) (call_result <$> r.1)); done.
Qed.

End FitRun.

Lemma foldl_sadd_NaN (l : list scalar) : foldl sadd NaN l = NaN.
Proof. induction l as [|x l IH]; [done|]. simpl. by destruct x. Qed.

Lemma np_sum_NaN (l : list scalar) : NaN ∈ l → np_sum l = NaN.
Proof.
  unfold np_sum. generalize (Fin 0). induction l as [|x l IH]; intros a Hin.
  - by apply elem_of_nil in Hin.
  - simpl. apply elem_of_cons in Hin as [<-|Hin].
    + replace (sadd a NaN) with NaN by by destruct a. apply foldl_sadd_NaN.
    + by apply IH.
Qed.

Lemma sdiv_NaN_r (x : scalar) : sdiv x NaN = NaN.
Proof. by destruct x. Qed.

(** Case analysis on the tests and the index lookup of [fit]. *)
Ltac fit_branches :=
  repeat match goal with
         | |- context [if ?b then _ else _] => destruct b
         | |- context [match ?o with Some _ => _ | None => _ end] => destruct o
         end.

Section FitExtras.
Context `{Collaborators}.

(** X1.  Whether it succeeds or fails, [fit] leaves the models, the metric,
    the evaluation count, the auxiliary options and the predictions as they
    were, and the stored training series is the one it was given. *)
Theorem fit_keeps_configuration (ts : series) (h : heap) :
  let h' := (fit ts h).2 in
  models (self h') = models (self h) ∧
  metrics (self h') = metrics (self h) ∧
  n_evaluations (self h') = n_evaluations (self h) ∧
  groe_kwargs (self h') = groe_kwargs (self h) ∧
  predictions (self h') = predictions (self h) ∧
  train_ts (self h') = Some ts.
Proof.
  cbn zeta. rewrite fit_run. cbn zeta.
  by fit_branches.
Qed.

(** X3.  After every [fit] the criterion has one entry per model, and after a
    successful [fit] so have the weights; this needs nothing of the
    evaluator. *)
Theorem fit_vector_lengths (ts : series) (h : heap) :
  ∃ crit : list scalar,
    criterion (self (fit ts h).2) = Some crit ∧
    length crit = length (models (self h)) ∧
    ((fit ts h).1 = Ret tt →
     ∃ ws, weights (self (fit ts h).2) = Some ws ∧
           length ws = length (models (self h))).
Proof.
  destruct (fit_cases ts h) as (crit & Hc & Hlen & _ & _ & Hcase).
  exists crit. split_and!; [done|done|]. intros Hok.
  destruct Hcase as [(_ & Hfail & _)|[(_ & _ & i & _ & Hw)|(_ & _ & _ & Hw)]].
  - rewrite Hok in Hfail. done.
  - eexists. split; [exact Hw|].
    unfold np_zeros. by rewrite length_insert, length_replicate.
  - eexists. split; [exact Hw|].
    unfold np_div, np_recip. by rewrite !length_fmap.
Qed.

(** X4.  With an empty list of models [fit] succeeds without invoking the
    evaluator; criterion and weights are both empty, so the weights sum to 0
    and not to 1. *)
Theorem fit_without_models (ts : series) (h : heap) :
  models (self h) = [] →
  (fit ts h).1 = Ret tt ∧
  criterion (self (fit ts h).2) = Some [] ∧
  calls (fit ts h).2 = calls h ∧
  ∃ ws, weights (self (fit ts h).2) = Some ws ∧ ws = [] ∧ np_sum ws = Fin 0.
Proof.
  intros Hms. rewrite fit_run. cbn zeta. rewrite Hms.
  cbn [eval_models fst snd]. rewrite fmap_nil. simpl. rewrite app_nil_r.
  split_and!; try done. by exists [].
Qed.

(** X5.  The evaluations of [fit] run one after the other, the first in the
    world left by the fit of the base class and each next one in the world
    left by the one before; the log grows by these invocations, the criterion
    holds their answers and the world is the one left by the last evaluation,
    also when [fit] fails. *)
Theorem fit_evaluations_sequential (ts : series) (h : heap) :
  let r := eval_models (Some ts) (metrics (self h)) (n_evaluations (self h))
             (groe_kwargs (self h)) (models (self h))
             (models_fit ts (models (self h)) (ext h)) in
  calls (fit ts h).2 = calls h ++ r.1 ∧
  ext (fit ts h).2 = r.2 ∧
  criterion (self (fit ts h).2) = Some (call_result <$> r.1).
Proof.
  cbn zeta. rewrite fit_run. cbn zeta.
  by fit_branches.
Qed.

(** X6.  What [fit] does is independent of the criterion, the weights and the
    training series stored before the call: the outcome, the new criterion
    and the world are the same whatever they were, and so are the weights
    after a success. *)
Theorem fit_ignores_history (ts : series) (h : heap)
    (c0 w0 : option (list scalar)) (t0 : option series) :
  let h0 := mkHeap (set_train_ts t0 (set_criterion c0 (set_weights w0 (self h))))
                   (ext h) (calls h) in
  (fit ts h0).1 = (fit ts h).1 ∧
  criterion (self (fit ts h0).2) = criterion (self (fit ts h).2) ∧
  ext (fit ts h0).2 = ext (fit ts h).2 ∧
  calls (fit ts h0).2 = calls (fit ts h).2 ∧
  ((fit ts h).1 = Ret tt →
   weights (self (fit ts h0).2) = weights (self (fit ts h).2)).
Proof.
  cbn zeta. rewrite !fit_run. cbn zeta.
  cbn [self ext calls set_train_ts set_criterion set_weights models metrics
       n_evaluations groe_kwargs].
  by fit_branches.
Qed.

(** X7.  An update of the configuration takes effect at the next [fit]: every
    evaluation of that [fit] is invoked with the supplied options without
    their [n_evaluations] entry, and with the supplied evaluation count, or
    the earlier one when none was supplied. *)
Theorem update_then_fit (kw : gmap string pyval) (ts : series) (h : heap) :
  let h1 := (update_groe_params kw h).2 in
  ∃ new : list call,
    calls (fit ts h1).2 = calls h ++ new ∧
    length new = length (models (self h)) ∧
    Forall (fun c =>
              call_kwargs c = delete "n_evaluations" kw ∧
              call_kwargs c !! "n_evaluations" = None ∧
              call_n_evaluations c =
                default (n_evaluations (self h)) (kw !! "n_evaluations")) new.
Proof.
  cbn zeta. rewrite update_groe_params_run. cbn [snd].
  match goal with |- context [fit ts ?h1] =>
    destruct (fit_unfold ts h1) as (new & w' & Hms & Hall & Hfit) end.
  cbn zeta in Hfit. cbn [self ext calls] in *.
  exists new. split_and!.
  - rewrite Hfit. by fit_branches.
  - by rewrite <- (length_fmap call_model), Hms.
  - eapply Forall_impl; [exact Hall|]. intros c (_ & _ & Hn & Hkw & _).
    cbn in Hn, Hkw. rewrite Hkw, Hn. split_and!; [done| |done].
    apply lookup_delete_eq.
Qed.

(** X8.  Two updates in a row: the stored options are those of the second
    update alone, and the evaluation count is the one of the second update,
    else the one of the first, else the one held before. *)
Theorem update_groe_params_twice (kw1 kw2 : gmap string pyval) (h : heap) :
  let h2 := (update_groe_params kw2 (update_groe_params kw1 h).2).2 in
  groe_kwargs (self h2) = delete "n_evaluations" kw2 ∧
  n_evaluations (self h2) =
    default (default (n_evaluations (self h)) (kw1 !! "n_evaluations"))
            (kw2 !! "n_evaluations") ∧
  (kw2 !! "n_evaluations" = None →
   h2 = mkHeap (set_groe_kwargs kw2 (self (update_groe_params kw1 h).2))
               (ext h) (calls h)).
Proof.
  cbn zeta. rewrite !update_groe_params_run. cbn [snd self ext calls].
  split_and!; [done|done|].
  intros Hnone. rewrite Hnone. cbn [default].
  rewrite (delete_id kw2) by done. reflexivity.
Qed.

(** X9.  A criterion that is not a number, with no unbounded and no zero
    entry beside it, does not make [fit] fail: [fit] succeeds and every
    weight is not a number. *)
Theorem fit_nan_criterion (ts : series) (h : heap) (crit : list scalar) :
  criterion (self (fit ts h).2) = Some crit →
  NaN ∈ crit → PInf ∉ crit → (∀ x, x ∈ crit → ¬ is_zero x) →
  (fit ts h).1 = Ret tt ∧
  ∃ ws, weights (self (fit ts h).2) = Some ws ∧
        length ws = length crit ∧
        ∀ w, w ∈ ws → w = NaN.
Proof.
  intros Hcrit Hnan Hinf Hnz.
  destruct (fit_cases ts h) as (crit' & Hc & _ & _ & _ & Hcase).
  rewrite Hcrit in Hc. injection Hc as <-.
  destruct Hcase as [(Hin & _)|[(_ & _ & i & Hi & _)|(_ & _ & Hok & Hw)]].
  { done. }
  { destruct (py_index_first _ _ Hi) as [(y & Hy & Hyz) _].
    exfalso. eapply Hnz; [|exact Hyz]. by eapply list_elem_of_lookup_2. }
  split; [done|]. eexists. split; [exact Hw|].
  assert (np_sum (np_recip crit) = NaN) as ->.
  { apply np_sum_NaN. unfold np_recip.
    change NaN with (sdiv (Fin 1) NaN). by apply list_elem_of_fmap_2. }
  unfold np_div, np_recip. split; [by rewrite !length_fmap|].
  intros w Hin. apply list_elem_of_fmap in Hin as (x & -> & _).
  apply sdiv_NaN_r.
Qed.

End FitExtras.

(** * Further properties of [combination_function] *)

Lemma value_at_finite (t : Z) (p : series) (v : scalar) :
  finite_series p → value_at t p = Some v → ∃ q, v = Fin q.
Proof.
  unfold value_at. intros Hfin Hv.
  destruct (find (fun p => bool_decide (p.1 = t)) p) as [tv|] eqn:E; [|done].
  injection Hv as <-. apply find_some in E as [Hin _].
  apply Hfin. by apply list_elem_of_In.
Qed.

(** Weights that are all zero give the sum zero, when the values are
    finite. *)
Lemma weighted_sum_zeros (t : Z) (ps : list series) :
  (∀ p, p ∈ ps → ∃ q, value_at t p = Some (Fin q)) →
  seq (weighted_sum_at t (np_zeros (length ps)) ps) (Fin 0).
Proof.
  unfold np_zeros. induction ps as [|p ps IH]; intros Hfin; [reflexivity|].
  destruct (Hfin p) as [q Hq]; [left|].
  cbn [length replicate weighted_sum_at]. rewrite Hq. cbn [default].
  rewrite IH by (intros p' Hp'; apply Hfin; by right). simpl. ring.
Qed.

(** One-hot weights select the value of one prediction, when the values are
    finite. *)
Lemma weighted_sum_one_hot (t : Z) (ps : list series) (k : nat) (pk : series)
    (v : scalar) :
  (∀ p, p ∈ ps → ∃ q, value_at t p = Some (Fin q)) →
  ps !! k = Some pk → value_at t pk = Some v →
  seq (weighted_sum_at t (<[k := Fin 1]> (np_zeros (length ps))) ps) v.
Proof.
  revert k. induction ps as [|p ps IH]; intros k Hfin Hk Hv; [done|].
  destruct (Hfin p) as [q Hq]; [left|].
  assert (∀ p', p' ∈ ps → ∃ q, value_at t p' = Some (Fin q)) as Hfin'.
  { intros p' Hp'. apply Hfin. by right. }
  destruct k as [|k].
  - injection Hk as <-. rewrite Hq in Hv. injection Hv as <-.
    unfold np_zeros. cbn [length replicate]. simpl insert.
    cbn [weighted_sum_at]. rewrite Hq. cbn [default].
    fold (np_zeros (length ps)). rewrite (weighted_sum_zeros t ps Hfin').
    simpl. ring.
  - unfold np_zeros in *. cbn [length replicate]. simpl insert.
    cbn [weighted_sum_at]. rewrite Hq. cbn [default].
    rewrite (IH k Hfin' Hk Hv). destruct v; simpl; try done. ring.
Qed.

(** Finite weights applied to one and the same finite value. *)
Lemma weighted_sum_constant (t : Z) (qs : list Q) (p : series) (x : Q) :
  value_at t p = Some (Fin x) →
  seq (weighted_sum_at t (Fin <$> qs) (replicate (length qs) p))
      (Fin (foldl Qplus 0%Q qs * x)).
Proof.
  intros Hx. induction qs as [|q qs IH]; [simpl; ring|].
  rewrite fmap_cons. cbn [length replicate weighted_sum_at].
  rewrite Hx. cbn [default]. rewrite IH. simpl.
  rewrite (foldl_Qplus_acc (0 + q)). ring.
Qed.

(** A prediction that is not a number at [t] makes the sum not a number,
    whatever its weight. *)
Lemma weighted_sum_NaN (t : Z) (ws : list scalar) (ps : list series) (i : nat)
    (p : series) :
  ps !! i = Some p → (i < length ws)%nat → value_at t p = Some NaN →
  weighted_sum_at t ws ps = NaN.
Proof.
  revert ws i. induction ps as [|p' ps IH]; intros ws i Hi Hlt Hv; [done|].
  destruct ws as [|w ws]; [simpl in Hlt; lia|].
  cbn [weighted_sum_at]. destruct i as [|i].
  - injection Hi as ->. rewrite Hv. cbn [default].
    destruct w, (weighted_sum_at t ws ps); done.
  - rewrite (IH ws i Hi) by (simpl in Hlt; lia || done).
    by destruct (smul w (default NaN (value_at t p'))).
Qed.

Section CombinationExtras.
Context `{Collaborators}.

(** What [combination_function] returns for as many weights as predictions,
    over the same timestamps. *)
Lemma combination_function_run (h : heap) (ws : list scalar) (ix : list Z) :
  weights (self h) = Some ws →
  length ws = length (predictions (self h)) →
  predictions (self h) ≠ [] →
  (∀ p, p ∈ predictions (self h) → times p = ix) →
  ∃ out : series,
    combination_function h = (Ret (SumSeries out), h) ∧
    times out = ix ∧
    ∀ t, t ∈ ix →
      ∃ v, value_at t out = Some v ∧
           seq v (weighted_sum_at t ws (predictions (self h))).
Proof.
  intros Hw Hlen Hne Hix. unfold combination_function. rewrite Hw.
  destruct (predictions (self h)) as [|p ps]; [done|].
  destruct ws as [|w ws]; [done|].
  unfold py_sum. cbn [zip_with py_sum_from py_add].
  destruct (py_sum_from_weighted ps ws
              (ts_add_scalar (ts_mul p w) (Fin (inject_Z 0))) ix)
    as (out & -> & Hout & Hsum).
  { rewrite times_ts_add_scalar, times_ts_mul. apply Hix. left. }
  { intros q Hq. apply Hix. by right. }
  exists out. split_and!; [done|done|].
  intros t Ht. rewrite <- (Hix p) in Ht by left.
  destruct (value_at_member t p Ht) as [vp Hvp].
  destruct (Hsum t (sadd (smul vp w) (Fin (inject_Z 0)))) as (v & Hv & Hseq).
  { by rewrite value_at_ts_add_scalar, value_at_ts_mul, Hvp. }
  exists v. split; [done|]. rewrite Hseq.
  cbn [weighted_sum_at]. rewrite Hvp. cbn [default].
  apply sadd_proper; [|reflexivity].
  etrans; [apply sadd_0_r|]. apply smul_comm.
Qed.

(** X11.  Without predictions, or with an empty weight vector, the result of
    [combination_function] is the integer 0 that [sum] starts from, not a
    series. *)
Theorem combination_function_nothing_to_add (h : heap) (ws : list scalar) :
  weights (self h) = Some ws →
  predictions (self h) = [] ∨ ws = [] →
  combination_function h = (Ret (SumInt 0), h).
Proof.
  intros Hw Hempty. unfold combination_function. rewrite Hw.
  destruct Hempty as [-> | ->]; [done|].
  by destruct (predictions (self h)).
Qed.

(** X12.  Predictions beyond the number of weights, and weights beyond the
    number of predictions, are ignored without an error: the result is the
    one for the common prefix. *)
Theorem combination_function_ignores_surplus (h : heap)
    (ws extra_w : list scalar) (ps extra_p : list series) :
  weights (self h) = Some (ws ++ extra_w) →
  predictions (self h) = ps ++ extra_p →
  length ps = length ws →
  extra_p = [] ∨ extra_w = [] →
  (combination_function h).1 =
  (combination_function
     (mkHeap (set_weights (Some ws) (set_predictions ps (self h)))
             (ext h) (calls h))).1.
Proof.
  intros Hw Hp Hlen Hextra. unfold combination_function.
  cbn [self weights predictions set_weights set_predictions]. rewrite Hw, Hp.
  cbn [fst]. f_equal. rewrite zip_with_app by done.
  destruct Hextra as [-> | ->]; [by rewrite app_nil_r|].
  destruct extra_p; by rewrite app_nil_r.
Qed.

(** X13.  With the one-hot weights that [fit] stores for a zero criterion at
    position [k], and finite predictions over the same timestamps, the
    combination is, value by value, the prediction of model [k]. *)
Theorem combination_function_one_hot (h : heap) (k : nat) (pk : series)
    (ix : list Z) :
  weights (self h) =
    Some (<[k := Fin 1]> (np_zeros (length (predictions (self h))))) →
  predictions (self h) !! k = Some pk →
  (∀ p, p ∈ predictions (self h) → times p = ix ∧ finite_series p) →
  ∃ out : series,
    combination_function h = (Ret (SumSeries out), h) ∧
    times out = ix ∧
    ∀ t v, value_at t pk = Some v →
      ∃ v', value_at t out = Some v' ∧ seq v' v.
Proof.
  intros Hw Hk Hps.
  destruct (combination_function_run h _ ix Hw) as (out & Hrun & Hout & Hsum).
  { unfold np_zeros. by rewrite length_insert, length_replicate. }
  { intros E. by rewrite E in Hk. }
  { intros p Hp. by apply Hps. }
  exists out. split_and!; [done|done|].
  intros t v Hv.
  assert (t ∈ ix) as Ht.
  { destruct (Hps pk) as [<- _]; [by eapply list_elem_of_lookup_2|].
    unfold value_at in Hv.
    destruct (find (fun p => bool_decide (p.1 = t)) pk) as [tv|] eqn:E; [|done].
    apply find_some in E as [Hin Heq]. apply bool_decide_eq_true in Heq.
    subst t. apply list_elem_of_fmap_2. by apply list_elem_of_In. }
  destruct (Hsum t Ht) as (v' & Hv' & Hseq).
  exists v'. split; [done|]. rewrite Hseq.
  apply (weighted_sum_one_hot t _ k pk v); [|done|done].
  intros p Hp. destruct (Hps p Hp) as [Hix Hfin].
  rewrite <- Hix in Ht. destruct (value_at_member t p Ht) as [x Hx].
  destruct (value_at_finite t p x Hfin Hx) as [q ->]. by exists q.
Qed.

(** X14.  With finite weights that sum to 1, as a successful [fit] stores
    them, the combination of predictions that are all one and the same
    finite series is that series, value by value. *)
Theorem combination_function_identical (h : heap) (ws : list scalar)
    (p : series) :
  weights (self h) = Some ws →
  ws ≠ [] →
  (∀ w, w ∈ ws → ∃ q, w = Fin q) →
  seq (np_sum ws) (Fin 1) →
  predictions (self h) = replicate (length ws) p →
  finite_series p →
  ∃ out : series,
    combination_function h = (Ret (SumSeries out), h) ∧
    times out = times p ∧
    ∀ t v, value_at t p = Some v →
      ∃ v', value_at t out = Some v' ∧ seq v' v.
Proof.
  intros Hw Hne Hfin Hsum Hp Hpfin.
  destruct (finite_list ws Hfin) as [qs ->].
  rewrite np_sum_Fin in Hsum. simpl in Hsum.
  destruct (combination_function_run h _ (times p) Hw) as (out & Hrun & Hout & Hval).
  { by rewrite Hp, length_replicate. }
  { rewrite Hp. destruct qs; done. }
  { intros p'. rewrite Hp. by intros [-> _]%elem_of_replicate. }
  exists out. split_and!; [done|done|].
  intros t v Hv.
  assert (t ∈ times p) as Ht.
  { unfold value_at in Hv.
    destruct (find (fun p => bool_decide (p.1 = t)) p) as [tv|] eqn:E; [|done].
    apply find_some in E as [Hin Heq]. apply bool_decide_eq_true in Heq.
    subst t. apply list_elem_of_fmap_2. by apply list_elem_of_In. }
  destruct (Hval t Ht) as (v' & Hv' & Hseq).
  exists v'. split; [done|]. rewrite Hseq, Hp.
  destruct (value_at_finite t p v Hpfin Hv) as [x ->].
  rewrite length_fmap. rewrite (weighted_sum_constant t qs p x Hv).
  simpl. rewrite Hsum. ring.
Qed.

(** X15.  No weight masks a prediction that is not a number: if one of the
    predictions is [nan] at a timestamp, so is the combination, also when the
    weight of that prediction is 0. *)
Theorem combination_function_nan (h : heap) (ws : list scalar) (ix : list Z)
    (i : nat) (p : series) (t : Z) :
  weights (self h) = Some ws →
  length ws = length (predictions (self h)) →
  (∀ p, p ∈ predictions (self h) → times p = ix) →
  predictions (self h) !! i = Some p →
  value_at t p = Some NaN →
  ∃ out : series,
    combination_function h = (Ret (SumSeries out), h) ∧
    value_at t out = Some NaN.
Proof.
  intros Hw Hlen Hix Hi Hv.
  destruct (combination_function_run h ws ix Hw Hlen) as (out & Hrun & Hout & Hval).
  { intros E. by rewrite E in Hi. }
  { done. }
  exists out. split; [done|].
  assert (t ∈ ix) as Ht.
  { rewrite <- (Hix p) by by eapply list_elem_of_lookup_2.
    unfold value_at in Hv.
    destruct (find (fun p => bool_decide (p.1 = t)) p) as [tv|] eqn:E; [|done].
    apply find_some in E as [Hin Heq]. apply bool_decide_eq_true in Heq.
    subst t. apply list_elem_of_fmap_2. by apply list_elem_of_In. }
  destruct (Hval t Ht) as (v' & Hv' & Hseq).
  rewrite (weighted_sum_NaN t ws _ i p Hi) in Hseq; [|by rewrite Hlen; eapply lookup_lt_Some|done].
  rewrite Hv'. by destruct v'.
Qed.

End CombinationExtras.

(** * The further properties on the concrete evaluators *)

Lemma fit_vector_lengths_witness :
  let h := toy_heap [mkToy 1 1 1; mkToy 2 1 1; mkToy 4 1 1] [] in
  ∃ ws, weights (self (fit one_point h).2) = Some ws ∧ length ws = 3%nat.
Proof.
  intros h.
  destruct (fit_vector_lengths (H := toy) one_point h) as (crit & _ & _ & Hws).
  exact (Hws eq_refl).
Defined.

Lemma fit_without_models_witness :
  let h := toy_heap [] [] in
  (fit one_point h).1 = Ret tt ∧
  criterion (self (fit one_point h).2) = Some [] ∧
  calls (fit one_point h).2 = calls h ∧
  ∃ ws, weights (self (fit one_point h).2) = Some ws ∧ ws = [] ∧
        np_sum ws = Fin 0.
Proof.
  intros h. apply (fit_without_models (H := toy) one_point h). reflexivity.
Defined.

Lemma fit_ignores_history_witness :
  let h := toy_heap [mkToy 1 1 1; mkToy 2 1 1] [] in
  let h0 := @mkHeap toy
              (set_train_ts (Some three_points)
                 (set_criterion (Some [PInf])
                    (set_weights (Some [Fin 1]) (self h))))
              (ext h) (calls h) in
  weights (self (fit one_point h0).2) = weights (self (fit one_point h).2).
Proof.
  intros h h0.
  destruct (fit_ignores_history (H := toy) one_point h
              (Some [PInf]) (Some [Fin 1]) (Some three_points))
    as (_ & _ & _ & _ & Hw).
  exact (Hw eq_refl).
Defined.

Lemma update_groe_params_twice_witness :
  let kw1 : gmap string pyval :=
    <["n_evaluations" := PyInt 3]> (<["stride" := PyInt 2]> ∅) in
  let kw2 : gmap string pyval := <["first_origin" := PyInt 5]> ∅ in
  let h2 := (update_groe_params kw2
               (update_groe_params kw1 (toy_heap [] [])).2).2 in
  groe_kwargs (self h2) = kw2 ∧ n_evaluations (self h2) = PyInt 3.
Proof.
  intros kw1 kw2 h2.
  destruct (update_groe_params_twice (H := toy) kw1 kw2 (toy_heap [] []))
    as (_ & Hn & Hh).
  split.
  - exact (f_equal (fun h => groe_kwargs (self h)) (Hh eq_refl)).
  - exact Hn.
Defined.

Lemma fit_nan_criterion_witness :
  let h := echo_heap [Fin 1; NaN; Fin 2] in
  (fit one_point h).1 = Ret tt ∧
  ∃ ws, weights (self (fit one_point h).2) = Some ws ∧
        length ws = 3%nat ∧ ∀ w, w ∈ ws → w = NaN.
Proof.
  intros h.
  apply (fit_nan_criterion (H := echo) one_point h [Fin 1; NaN; Fin 2]).
  - reflexivity.
  - right. left.
  - intros Hin. apply list_elem_of_In in Hin. simpl in Hin.
    destruct Hin as [?|[?|[?|[]]]]; discriminate.
  - intros x Hin. apply list_elem_of_In in Hin. simpl in Hin.
    destruct Hin as [<-|[<-|[<-|[]]]]; simpl; intros E; try discriminate E; exact E.
Defined.

Lemma combination_function_nothing_to_add_witness :
  let h := combining_heap [Fin 1] [] in
  combination_function h = (Ret (SumInt 0), h).
Proof.
  intros h.
  apply (combination_function_nothing_to_add (H := toy) h [Fin 1]).
  - reflexivity.
  - left. reflexivity.
Defined.

Lemma combination_function_ignores_surplus_witness :
  let h := combining_heap [Fin (1 # 2); Fin (1 # 2)]
             [[(0%Z, Fin 10)]; [(0%Z, Fin 20)]; [(5%Z, Fin 30)]] in
  (combination_function h).1 =
  (combination_function
     (combining_heap [Fin (1 # 2); Fin (1 # 2)]
        [[(0%Z, Fin 10)]; [(0%Z, Fin 20)]])).1.
Proof.
  intros h.
  apply (combination_function_ignores_surplus (H := toy) h
           [Fin (1 # 2); Fin (1 # 2)] []
           [[(0%Z, Fin 10)]; [(0%Z, Fin 20)]] [[(5%Z, Fin 30)]]).
  - reflexivity.
  - reflexivity.
  - reflexivity.
  - right. reflexivity.
Defined.

Lemma combination_function_one_hot_witness :
  let h := combining_heap [Fin 0; Fin 1]
             [[(0%Z, Fin 10)]; [(0%Z, Fin 20)]] in
  ∃ out : series,
    combination_function h = (Ret (SumSeries out), h) ∧
    times out = [0%Z] ∧
    ∀ t v, value_at t [(0%Z, Fin 20)] = Some v →
      ∃ v', value_at t out = Some v' ∧ seq v' v.
Proof.
  intros h.
  apply (combination_function_one_hot (H := toy) h 1 [(0%Z, Fin 20)] [0%Z]).
  - reflexivity.
  - reflexivity.
  - intros p Hin. apply list_elem_of_In in Hin. simpl in Hin.
    destruct Hin as [<-|[<-|[]]]; (split; [reflexivity|]);
      intros tv Htv; apply list_elem_of_In in Htv; simpl in Htv;
      destruct Htv as [<-|[]]; eexists; reflexivity.
Defined.

Lemma combination_function_identical_witness :
  let p : series := [(0%Z, Fin 10); (1%Z, Fin 12)] in
  let h := combining_heap [Fin (2 # 3); Fin (2 # 6)] [p; p] in
  ∃ out : series,
    combination_function h = (Ret (SumSeries out), h) ∧
    times out = [0%Z; 1%Z] ∧
    ∀ t v, value_at t p = Some v → ∃ v', value_at t out = Some v' ∧ seq v' v.
Proof.
  intros p h.
  apply (combination_function_identical (H := toy) h
           [Fin (2 # 3); Fin (2 # 6)] p).
  - reflexivity.
  - discriminate.
  - intros w Hin. apply list_elem_of_In in Hin. simpl in Hin.
    destruct Hin as [<-|[<-|[]]]; eexists; reflexivity.
  - reflexivity.
  - reflexivity.
  - intros tv Htv. apply list_elem_of_In in Htv. simpl in Htv.
    destruct Htv as [<-|[<-|[]]]; eexists; reflexivity.
Defined.

Lemma combination_function_nan_witness :
  let h := combining_heap [Fin 1; Fin 0]
             [[(0%Z, Fin 10)]; [(0%Z, NaN)]] in
  ∃ out : series,
    combination_function h = (Ret (SumSeries out), h) ∧
    value_at 0 out = Some NaN.
Proof.
  intros h.
  apply (combination_function_nan (H := toy) h [Fin 1; Fin 0] [0%Z] 1
           [(0%Z, NaN)] 0%Z).
  - reflexivity.
  - reflexivity.
  - intros p Hin. apply list_elem_of_In in Hin. simpl in Hin.
    destruct Hin as [<-|[<-|[]]]; reflexivity.
  - reflexivity.
  - reflexivity.
Defined.

(** * The corrected claims about the values of the weights *)






